(** * BugTracker API: a model of [main.py] and its request handlers

    The service is a thin layer over two PostgreSQL tables.  Every handler
    builds one SQL statement, binds request parameters and maps the rows that
    come back to a JSON response.  The model below follows that shape:

    - JSON bodies and the three pydantic schemas ([BugCreate], [BugUpdate],
      [CommentCreate]) with their length and pattern constraints;
    - the SQL statements the handlers issue, as a small syntax tree, and an
      executor for them over tables of rows (a row is a mapping from column
      name to value, as [.mappings()] returns it);
    - the handlers themselves in a state-and-exception monad over the
      database, with [engine.begin()] and [engine.connect()] as combinators;
    - the FastAPI routes, which validate the body, run the handler and turn
      exceptions into error responses. *)

From stdpp Require Import base option list sorting gmap strings fin_maps.

Local Open Scope Z_scope.
#[local] Set Warnings "-clear-no-such-hyp".

(** ** Values *)

(** JSON values a request body can carry for a field.  A body is a JSON
    object, [gmap string json]; fields the schema does not declare are
    ignored. *)
Inductive json :=
  | JNull
  | JBool (b : bool)
  | JNum (n : Z)
  | JStr (s : string).

(** Python values bound to statement parameters. *)
Inductive pyval :=
  | PyNone
  | PyInt (n : Z)
  | PyStr (s : string).

(** SQL values stored in a column. *)
Inductive sqlval :=
  | SqlNull
  | SqlInt (n : Z)
  | SqlText (s : string)
  | SqlTime (t : Z).

#[global] Instance json_eq_dec : EqDecision json.
Proof. solve_decision. Defined.
#[global] Instance pyval_eq_dec : EqDecision pyval.
Proof. solve_decision. Defined.
#[global] Instance sqlval_eq_dec : EqDecision sqlval.
Proof. solve_decision. Defined.

(** What the driver sends for a bound Python value. *)
Definition bind_param (v : pyval) : sqlval :=
  match v with
  | PyNone => SqlNull
  | PyInt n => SqlInt n
  | PyStr s => SqlText s
  end.

(** A row as [.mappings()] yields it: column name to value. *)
Abbreviation row := (gmap string sqlval).

(** The value of column [c] in [r]; a column the mapping lacks reads as NULL. *)
Definition col (r : row) (c : string) : sqlval := default SqlNull (r !! c).

(** ** Pydantic schemas (input validation) *)

(** Strings are sequences of characters; pydantic counts characters. *)
Definition str_length (s : string) : Z := Z.of_nat (String.length s).

(** [Field(min_length=.., max_length=..)] *)
Definition check_length (min_length max_length : Z) (s : string) : bool :=
  bool_decide (min_length ≤ str_length s ≤ max_length).

(** [Field(pattern="^(a|b|c)$")]: the whole string is one of the alternatives. *)
Definition check_pattern (alternatives : list string) (s : string) : bool :=
  bool_decide (s ∈ alternatives).

Definition priority_pattern : list string := ["low"; "medium"; "high"; "critical"].
Definition status_pattern : list string := ["open"; "in_progress"; "closed"].

(** A required [str] field, [Field(..., ...)]. *)
Definition required_str (check : string → bool) (v : option json) : option string :=
  match v with
  | Some (JStr s) => if check s then Some s else None
  | _ => None
  end.

(** A [str] field with a default, [Field("open", ...)]. *)
Definition default_str (d : string) (check : string → bool) (v : option json)
  : option string :=
  match v with
  | None => Some d
  | Some (JStr s) => if check s then Some s else None
  | Some _ => None
  end.

(** An [Optional[str]] field, [Field(None, ...)]: absent and [null] both give
    [None]; the constraints apply to strings only. *)
Definition optional_str (check : string → bool) (v : option json)
  : option (option string) :=
  match v with
  | None | Some JNull => Some None
  | Some (JStr s) => if check s then Some (Some s) else None
  | Some _ => None
  end.

Module BugCreate.
Record t := mk {
  title : string;
  description : string;
  priority : string;
  status : string }.

Definition validate (body : gmap string json) : option t :=
  title ← required_str (check_length 3 200) (body !! "title");
  description ← required_str (check_length 3 5000) (body !! "description");
  priority ← required_str (check_pattern priority_pattern) (body !! "priority");
  status ← default_str "open" (check_pattern status_pattern) (body !! "status");
  Some (mk title description priority status).

Definition model_dump (p : t) : gmap string pyval :=
  <["title" := PyStr (title p)]>
  (<["description" := PyStr (description p)]>
  (<["priority" := PyStr (priority p)]>
  (<["status" := PyStr (status p)]> ∅))).
End BugCreate.

Module BugUpdate.
Record t := mk {
  title : option string;
  description : option string;
  priority : option string;
  status : option string }.

Definition validate (body : gmap string json) : option t :=
  title ← optional_str (check_length 3 200) (body !! "title");
  description ← optional_str (check_length 3 5000) (body !! "description");
  priority ← optional_str (check_pattern priority_pattern) (body !! "priority");
  status ← optional_str (check_pattern status_pattern) (body !! "status");
  Some (mk title description priority status).

Definition to_py (v : option string) : pyval :=
  match v with
  | None => PyNone
  | Some s => PyStr s
  end.

(** [model_dump(exclude_none=...).items()], in field order. *)
Definition model_dump (exclude_none : bool) (p : t) : list (string * pyval) :=
  filter (λ kv, exclude_none = false ∨ kv.2 ≠ PyNone)
    [("title", to_py (title p));
     ("description", to_py (description p));
     ("priority", to_py (priority p));
     ("status", to_py (status p))].
End BugUpdate.

Module CommentCreate.
Record t := mk {
  author : string;
  comment : string }.

Definition validate (body : gmap string json) : option t :=
  author ← required_str (check_length 1 100) (body !! "author");
  comment ← required_str (check_length 1 2000) (body !! "comment");
  Some (mk author comment).
End CommentCreate.

(** ** SQL statements *)

Inductive table := bugs | bug_comments.

#[global] Instance table_eq_dec : EqDecision table.
Proof. solve_decision. Defined.

Inductive sqlexpr :=
  | EParam (name : string)                     (* [:name] *)
  | ENow                                       (* [NOW()] *)
  | ENull                                      (* [NULL] *)
  | ECaseEq (e : sqlexpr) (lit : string) (e_then e_else : sqlexpr).
      (* [CASE WHEN e = 'lit' THEN e_then ELSE e_else END] *)

Inductive selitem :=
  | Col (c : string)
  | Lit (n : Z).

Inductive order := Asc | Desc.

Inductive stmt :=
  | Select (items : list selitem) (t : table)
           (where_ : option (string * sqlexpr)) (order_by : option (string * order))
  | Insert (t : table) (cols : list string) (vals : list sqlexpr)
           (returning : list string)
  | Update (t : table) (sets : list (string * sqlexpr))
           (where_ : string * sqlexpr) (returning : list string).

(** ** The database *)

Record DB := mkDB {
  bugs_rows : list row;
  bug_comments_rows : list row;
  bugs_bug_id_seq : Z;
  bug_comments_comment_id_seq : Z }.

Definition rows_of (t : table) (db : DB) : list row :=
  match t with
  | bugs => bugs_rows db
  | bug_comments => bug_comments_rows db
  end.

Definition set_rows (t : table) (rows : list row) (db : DB) : DB :=
  match t with
  | bugs => mkDB rows (bug_comments_rows db)
                 (bugs_bug_id_seq db) (bug_comments_comment_id_seq db)
  | bug_comments => mkDB (bugs_rows db) rows
                 (bugs_bug_id_seq db) (bug_comments_comment_id_seq db)
  end.

(** The columns of each table, as the statements of [main.py] name them. *)
Definition columns (t : table) : list string :=
  match t with
  | bugs =>
      ["bug_id"; "title"; "description"; "priority"; "status";
       "created_at"; "updated_at"; "resolved_at"]
  | bug_comments =>
      ["comment_id"; "bug_id"; "author"; "comment"; "created_at"]
  end.

Inductive column_default := Nextval | DefaultNow.

(** Modelled from the spec: the table definitions (DDL) are not in the
    repository.  The identifier of a bug and of a comment is generated by the
    store, and a comment is inserted "with current timestamp" although
    [add_comment] does not pass [created_at]: so [bug_id] and [comment_id]
    take the next value of a sequence and [bug_comments.created_at] defaults
    to [NOW()].  Every other column has no default. *)
Definition column_default_of (t : table) (c : string) : option column_default :=
  match t with
  | bugs => if bool_decide (c = "bug_id") then Some Nextval else None
  | bug_comments =>
      if bool_decide (c = "comment_id") then Some Nextval
      else if bool_decide (c = "created_at") then Some DefaultNow
      else None
  end.

Definition seq_of (t : table) (db : DB) : Z :=
  match t with
  | bugs => bugs_bug_id_seq db
  | bug_comments => bug_comments_comment_id_seq db
  end.

Definition advance_seq (t : table) (db : DB) : DB :=
  match t with
  | bugs => mkDB (bugs_rows db) (bug_comments_rows db)
                 (bugs_bug_id_seq db + 1) (bug_comments_comment_id_seq db)
  | bug_comments => mkDB (bugs_rows db) (bug_comments_rows db)
                 (bugs_bug_id_seq db) (bug_comments_comment_id_seq db + 1)
  end.

(** The empty database. *)
Definition init_db : DB := mkDB [] [] 1 1.

(** ** Executing statements *)

(** [a = b] in a [WHERE] or [CASE WHEN]: true only for equal non-null values. *)
Definition sql_eqb (a b : sqlval) : bool :=
  bool_decide (a ≠ SqlNull ∧ b ≠ SqlNull ∧ a = b).

Fixpoint eval_expr (now : Z) (params : gmap string pyval) (e : sqlexpr)
  : option sqlval :=
  match e with
  | EParam name => bind_param <$> params !! name
  | ENow => Some (SqlTime now)
  | ENull => Some SqlNull
  | ECaseEq e lit e_then e_else =>
      v ← eval_expr now params e;
      if sql_eqb v (SqlText lit) then eval_expr now params e_then
      else eval_expr now params e_else
  end.

(** The order [ORDER BY] sorts by.  NULL sorts after every value, so it
    comes last ascending and first descending.  The values of one column
    have one type; values of different types are ordered by type only to
    keep the order total. *)
Definition sqlval_le (a b : sqlval) : Prop :=
  match a, b with
  | _, SqlNull => True
  | SqlNull, _ => False
  | SqlInt x, SqlInt y => x ≤ y
  | SqlInt _, _ => True
  | SqlText _, SqlInt _ => False
  | SqlText x, SqlText y => String.le x y
  | SqlText _, SqlTime _ => True
  | SqlTime x, SqlTime y => x ≤ y
  | SqlTime _, _ => False
  end.

#[global] Instance sqlval_le_dec : RelDecision sqlval_le.
Proof. intros [] []; simpl; apply _. Defined.

Definition row_le (c : string) (o : order) : relation row :=
  match o with
  | Asc => λ r1 r2, sqlval_le (col r1 c) (col r2 c)
  | Desc => λ r1 r2, sqlval_le (col r2 c) (col r1 c)
  end.

#[global] Instance row_le_dec c o : RelDecision (row_le c o).
Proof. destruct o; intros r1 r2; simpl; apply _. Defined.

Definition order_rows (order_by : option (string * order)) (rows : list row)
  : list row :=
  match order_by with
  | None => rows
  | Some (c, o) => merge_sort (row_le c o) rows
  end.

(** The select list, or a [RETURNING] list, applied to one row. *)
Fixpoint project (items : list selitem) (r : row) : row :=
  match items with
  | [] => ∅
  | Col c :: items => <[c := col r c]> (project items r)
  | Lit n :: items => <["?column?" := SqlInt n]> (project items r)
  end.

Definition row_matches (c : string) (v : sqlval) (r : row) : bool :=
  sql_eqb (col r c) v.

(** The columns a select list names. *)
Definition item_columns (items : list selitem) : list string :=
  omap (λ it, match it with Col c => Some c | Lit _ => None end) items.

Definition exec_select (now : Z) (params : gmap string pyval)
    (items : list selitem) (t : table)
    (where_ : option (string * sqlexpr)) (order_by : option (string * order))
    (db : DB) : option (list row) :=
  if bool_decide (item_columns items ++ option_list (fst <$> where_)
                    ++ option_list (fst <$> order_by) ⊆ columns t) then
    selected ←
      match where_ with
      | None => Some (rows_of t db)
      | Some (c, e) =>
          v ← eval_expr now params e;
          Some (filter (λ r, row_matches c v r = true) (rows_of t db))
      end;
    Some (project items <$> order_rows order_by selected)
  else None.

(** The value a column gets when [INSERT] does not list it. *)
Definition default_value (now : Z) (t : table) (db : DB) (c : string) : sqlval :=
  match column_default_of t c with
  | Some Nextval => SqlInt (seq_of t db)
  | Some DefaultNow => SqlTime now
  | None => SqlNull
  end.

Definition new_row (now : Z) (t : table) (db : DB) (given : row) : row :=
  list_to_map
    ((λ c, (c, default (default_value now t db c) (given !! c))) <$> columns t).

Definition exec_insert (now : Z) (params : gmap string pyval)
    (t : table) (cols : list string) (vals : list sqlexpr)
    (returning : list string) (db : DB) : option (list row * DB) :=
  vs ← mapM (eval_expr now params) vals;
  if bool_decide (length cols = length vs ∧ NoDup cols ∧ cols ⊆ columns t) then
    let r := new_row now t db (list_to_map (zip cols vs)) in
    Some ([project (Col <$> returning) r],
          advance_seq t (set_rows t (rows_of t db ++ [r]) db))
  else None.

(** [SET c1 = v1, c2 = v2, ...] on one row. *)
Definition assign (sets : list (string * sqlval)) (r : row) : row :=
  foldl (λ r cv, <[cv.1 := cv.2]> r) r sets.

Definition exec_update (now : Z) (params : gmap string pyval)
    (t : table) (sets : list (string * sqlexpr)) (where_ : string * sqlexpr)
    (returning : list string) (db : DB) : option (list row * DB) :=
  v ← eval_expr now params where_.2;
  sets' ← mapM (λ ce, pair ce.1 <$> eval_expr now params ce.2) sets;
  if bool_decide (NoDup sets.*1 ∧ sets.*1 ⊆ columns t ∧ where_.1 ∈ columns t) then
    let hit r := row_matches where_.1 v r in
    Some (project (Col <$> returning) ∘ assign sets' <$>
            filter (λ r, hit r = true) (rows_of t db),
          set_rows t ((λ r, if hit r then assign sets' r else r) <$> rows_of t db) db)
  else None.

(** ** Handlers: state and exceptions over the database *)

Inductive exn :=
  | HTTPException (status_code : Z) (detail : string)
  | UnhandledError.   (* any other exception: a driver error, [.one()] failing *)

Inductive outcome (A : Type) :=
  | Return (a : A)
  | Raise (e : exn).
Arguments Return {A} a.
Arguments Raise {A} e.

Definition io (A : Type) : Type := DB → outcome A * DB.

#[global] Instance io_ret : MRet io := λ A a db, (Return a, db).
#[global] Instance io_bind : MBind io := λ A B f m db,
  match m db with
  | (Return a, db') => f a db'
  | (Raise e, db') => (Raise e, db')
  end.

Definition raise {A} (e : exn) : io A := λ db, (Raise e, db).

(** [with engine.begin() as conn:] commits when the block ends, rolls back
    when it raises.  (A rollback here also restores the sequences, which
    PostgreSQL would not; no handler depends on it.) *)
Definition begin {A} (m : io A) : io A := λ db,
  match m db with
  | (Return a, db') => (Return a, db')
  | (Raise e, _) => (Raise e, db)
  end.

(** [with engine.connect() as conn:] never commits. *)
Definition connect {A} (m : io A) : io A := λ db, ((m db).1, db).

(** [conn.execute(text(sql), params)] *)
Definition execute (now : Z) (sql : stmt) (params : gmap string pyval)
  : io (list row) := λ db,
  match sql with
  | Select items t where_ order_by =>
      match exec_select now params items t where_ order_by db with
      | Some rows => (Return rows, db)
      | None => (Raise UnhandledError, db)
      end
  | Insert t cols vals returning =>
      match exec_insert now params t cols vals returning db with
      | Some (rows, db') => (Return rows, db')
      | None => (Raise UnhandledError, db)
      end
  | Update t sets where_ returning =>
      match exec_update now params t sets where_ returning db with
      | Some (rows, db') => (Return rows, db')
      | None => (Raise UnhandledError, db)
      end
  end.

(** [.one()]: exactly one row or an exception. *)
Definition one (rows : list row) : io row :=
  match rows with
  | [r] => mret r
  | _ => raise UnhandledError
  end.

(** [.first()] and [.fetchone()]: the first row or [None]. *)
Definition first (rows : list row) : io (option row) := mret (head rows).

(** [.all()] *)
Definition all (rows : list row) : io (list row) := mret rows.

(** ** Bugs (PostgreSQL-backed) *)

Definition bug_columns : list string :=
  ["bug_id"; "title"; "description"; "priority"; "status";
   "created_at"; "updated_at"; "resolved_at"].

Definition resolved_at_rule : sqlexpr :=
  ECaseEq (EParam "status") "closed" ENow ENull.

Definition list_bugs (now : Z) : io (list row) :=
  let sql := Select (Col <$> bug_columns) bugs None (Some ("bug_id", Desc)) in
  rows ← connect (rows ← execute now sql ∅; all rows);
  mret rows.

Definition create_bug (now : Z) (payload : BugCreate.t) : io row :=
  let sql :=
    Insert bugs
      ["title"; "description"; "priority"; "status";
       "created_at"; "updated_at"; "resolved_at"]
      [EParam "title"; EParam "description"; EParam "priority"; EParam "status";
       ENow; ENow; resolved_at_rule]
      bug_columns in
  row ← begin (rows ← execute now sql (BugCreate.model_dump payload); one rows);
  mret row.

Definition get_bug (now : Z) (bug_id : Z) : io row :=
  let sql :=
    Select (Col <$> bug_columns) bugs (Some ("bug_id", EParam "bug_id")) None in
  row ← connect (rows ← execute now sql {["bug_id" := PyInt bug_id]}; first rows);
  match row with
  | None => raise (HTTPException 404 "Bug not found")
  | Some row => mret row
  end.

Definition update_bug (now : Z) (bug_id : Z) (payload : BugUpdate.t) : io row :=
  (* Build dynamic SET clause (only update provided fields) *)
  let '(fields, values) :=
    foldl (λ '(fields, values) '(key, value),
             (fields ++ [(key, EParam key)], <[key := value]> values))
          ([], {["bug_id" := PyInt bug_id]})
          (BugUpdate.model_dump true payload) in
  if fields is [] then
    raise (HTTPException 400 "No fields provided for update")
  else
    (* Auto-handle resolved_at when status changes *)
    let fields :=
      if bool_decide (is_Some (values !! "status"))
      then fields ++ [("resolved_at", resolved_at_rule)]
      else fields in
    let sql :=
      Update bugs (fields ++ [("updated_at", ENow)])
             ("bug_id", EParam "bug_id") bug_columns in
    row ← begin (rows ← execute now sql values; first rows);
    match row with
    | None => raise (HTTPException 404 "Bug not found")
    | Some row => mret row
    end.

(** ** Comments (PostgreSQL-backed) *)

Definition comment_columns : list string :=
  ["comment_id"; "bug_id"; "author"; "comment"; "created_at"].

Definition add_comment (now : Z) (bug_id : Z) (payload : CommentCreate.t)
  : io row :=
  (* Ensure bug exists *)
  exists_ ← connect
    (rows ← execute now
       (Select [Lit 1] bugs (Some ("bug_id", EParam "bug_id")) None)
       {["bug_id" := PyInt bug_id]};
     first rows);
  match exists_ with
  | None => raise (HTTPException 404 "Bug not found")
  | Some _ =>
      let insert_sql :=
        Insert bug_comments ["bug_id"; "author"; "comment"]
          [EParam "bug_id"; EParam "author"; EParam "comment"]
          comment_columns in
      row ← begin
        (rows ← execute now insert_sql
           (<["bug_id" := PyInt bug_id]>
            (<["author" := PyStr (CommentCreate.author payload)]>
            (<["comment" := PyStr (CommentCreate.comment payload)]> ∅)));
         one rows);
      mret row
  end.

Definition list_comments (now : Z) (bug_id : Z) : io (list row) :=
  let sql :=
    Select (Col <$> comment_columns) bug_comments
      (Some ("bug_id", EParam "bug_id")) (Some ("created_at", Asc)) in
  rows ← connect (rows ← execute now sql {["bug_id" := PyInt bug_id]}; all rows);
  mret rows.

(** ** Routes *)

Inductive response (A : Type) :=
  | Response (status_code : Z) (content : A)
  | ErrorResponse (status_code : Z) (detail : string).
Arguments Response {A} status_code content.
Arguments ErrorResponse {A} status_code detail.

Definition status_of {A} (r : response A) : Z :=
  match r with
  | Response c _ => c
  | ErrorResponse c _ => c
  end.

(** Run a handler; [status_code] is the one the route decorator declares.
    An [HTTPException] becomes its own error response, any other exception
    a 500. *)
Definition serve {A} (status_code : Z) (m : io A) (db : DB) : response A * DB :=
  match m db with
  | (Return a, db') => (Response status_code a, db')
  | (Raise (HTTPException c detail), db') => (ErrorResponse c detail, db')
  | (Raise UnhandledError, db') => (ErrorResponse 500 "Internal Server Error", db')
  end.

(** A body the schema rejects never reaches the handler. *)
Definition validated {P A} (payload : option P) (k : P → DB → response A * DB)
    (db : DB) : response A * DB :=
  match payload with
  | Some p => k p db
  | None => (ErrorResponse 422 "Unprocessable Entity", db)
  end.

Definition GET_bugs (now : Z) : DB → response (list row) * DB :=
  serve 200 (list_bugs now).

Definition POST_bugs (now : Z) (body : gmap string json)
  : DB → response row * DB :=
  validated (BugCreate.validate body) (λ payload, serve 201 (create_bug now payload)).

Definition GET_bug (now : Z) (bug_id : Z) : DB → response row * DB :=
  serve 200 (get_bug now bug_id).

Definition PATCH_bug (now : Z) (bug_id : Z) (body : gmap string json)
  : DB → response row * DB :=
  validated (BugUpdate.validate body)
    (λ payload, serve 200 (update_bug now bug_id payload)).

Definition POST_comments (now : Z) (bug_id : Z) (body : gmap string json)
  : DB → response row * DB :=
  validated (CommentCreate.validate body)
    (λ payload, serve 201 (add_comment now bug_id payload)).

Definition GET_comments (now : Z) (bug_id : Z) : DB → response (list row) * DB :=
  serve 200 (list_comments now bug_id).

(** ** Reachable states *)

Inductive step : DB → DB → Prop :=
  | step_GET_bugs now db : step db (GET_bugs now db).2
  | step_POST_bugs now body db : step db (POST_bugs now body db).2
  | step_GET_bug now bug_id db : step db (GET_bug now bug_id db).2
  | step_PATCH_bug now bug_id body db : step db (PATCH_bug now bug_id body db).2
  | step_POST_comments now bug_id body db :
      step db (POST_comments now bug_id body db).2
  | step_GET_comments now bug_id db : step db (GET_comments now bug_id db).2.

Inductive reachable : DB → Prop :=
  | reachable_init : reachable init_db
  | reachable_step db db' : reachable db → step db db' → reachable db'.

(** * Specification vocabulary *)

(** The row is the bug (or belongs to the bug) with this identifier:
    the [WHERE bug_id = :bug_id] test. *)
Definition has_bug_id (bug_id : Z) (r : row) : bool :=
  row_matches "bug_id" (SqlInt bug_id) r.

Definition bug_exists (bug_id : Z) (db : DB) : Prop :=
  Exists (λ r, has_bug_id bug_id r = true) (bugs_rows db).

(** The closed-iff-resolved rule, as a value. *)
Definition resolved_for (now : Z) (s : string) : sqlval :=
  if bool_decide (s = "closed") then SqlTime now else SqlNull.

(** [resolved_at] is non-null iff [status] is ['closed']. *)
Definition resolved_iff_closed (r : row) : Prop :=
  col r "resolved_at" ≠ SqlNull ↔ col r "status" = SqlText "closed".

Definition resolved_invariant (db : DB) : Prop :=
  Forall resolved_iff_closed (bugs_rows db).

(** The fields a validated PATCH body supplies, in schema order. *)
Definition item (k : string) (v : option string) : list (string * pyval) :=
  match v with
  | Some s => [(k, PyStr s)]
  | None => []
  end.

Definition supplied (p : BugUpdate.t) : list (string * pyval) :=
  item "title" (BugUpdate.title p) ++ item "description" (BugUpdate.description p) ++
  item "priority" (BugUpdate.priority p) ++ item "status" (BugUpdate.status p).

(** The column assignments the statement of [update_bug] performs. *)
Definition set_clause (now : Z) (p : BugUpdate.t) : list (string * sqlval) :=
  (prod_map id bind_param <$> supplied p) ++
  match BugUpdate.status p with
  | Some s => [("resolved_at", resolved_for now s)]
  | None => []
  end ++
  [("updated_at", SqlTime now)].

(** The bugs table after the UPDATE of [update_bug]. *)
Definition patched_db (now : Z) (bug_id : Z) (p : BugUpdate.t) (db : DB) : DB :=
  set_rows bugs
    ((λ r, if has_bug_id bug_id r then assign (set_clause now p) r else r) <$>
       bugs_rows db) db.

(** The field of a validated PATCH body with this name. *)
Definition field (p : BugUpdate.t) (k : string) : option string :=
  if bool_decide (k = "title") then BugUpdate.title p
  else if bool_decide (k = "description") then BugUpdate.description p
  else if bool_decide (k = "priority") then BugUpdate.priority p
  else if bool_decide (k = "status") then BugUpdate.status p
  else None.


(** The row [create_bug] inserts. *)
Definition created_bug (now : Z) (bug_id : Z) (p : BugCreate.t) : row :=
  <["bug_id" := SqlInt bug_id]>
  (<["title" := SqlText (BugCreate.title p)]>
  (<["description" := SqlText (BugCreate.description p)]>
  (<["priority" := SqlText (BugCreate.priority p)]>
  (<["status" := SqlText (BugCreate.status p)]>
  (<["created_at" := SqlTime now]>
  (<["updated_at" := SqlTime now]>
  (<["resolved_at" := resolved_for now (BugCreate.status p)]> ∅))))))).

(** The row [add_comment] inserts. *)
Definition created_comment (now : Z) (comment_id bug_id : Z) (p : CommentCreate.t)
  : row :=
  <["comment_id" := SqlInt comment_id]>
  (<["bug_id" := SqlInt bug_id]>
  (<["author" := SqlText (CommentCreate.author p)]>
  (<["comment" := SqlText (CommentCreate.comment p)]>
  (<["created_at" := SqlTime now]> ∅)))).

(** Identifiers of bugs are integers, no two rows share one. *)
Definition bugs_pkey (rows : list row) : Prop :=
  Forall (λ r, ∃ n, col r "bug_id" = SqlInt n) rows ∧
  NoDup ((λ r, col r "bug_id") <$> rows).

(** Identifiers handed out so far lie below the sequence. *)
Definition ids_below_seq (db : DB) : Prop :=
  Forall (λ r, ∃ n, col r "bug_id" = SqlInt n ∧ n < bugs_bug_id_seq db) (bugs_rows db).

(** The row has exactly the columns of the table. *)
Definition has_columns (t : table) (r : row) : Prop :=
  dom r = list_to_set (columns t).

Definition schema_invariant (db : DB) : Prop :=
  Forall (has_columns bugs) (bugs_rows db) ∧
  Forall (has_columns bug_comments) (bug_comments_rows db).

(** [r1] has a greater identifier than [r2]. *)
Definition id_gt (r1 r2 : row) : Prop :=
  ∃ n1 n2, col r1 "bug_id" = SqlInt n1 ∧ col r2 "bug_id" = SqlInt n2 ∧ n1 > n2.


(** The fields a PATCH body can carry. *)
Definition updatable : list string := ["title"; "description"; "priority"; "status"].



(** Every comment belongs to a bug of the table. *)
Definition comments_reference_bugs (db : DB) : Prop :=
  Forall (λ c, ∃ n, col c "bug_id" = SqlInt n ∧ bug_exists n db)
         (bug_comments_rows db).

(** [db'] keeps the history of [db]: its comments are those of [db],
    unchanged, followed by new ones; its bugs are those of [db], each with
    the identifier and creation time it had, followed by new ones. *)
Definition keeps_history (db db' : DB) : Prop :=
  bug_comments_rows db `prefix_of` bug_comments_rows db' ∧
  ∃ rows new,
    bugs_rows db' = rows ++ new ∧
    Forall2 (λ r r', r' !! "bug_id" = r !! "bug_id" ∧
                     r' !! "created_at" = r !! "created_at")
            (bugs_rows db) rows.



(** * Sample requests and states *)

Definition crash_report : gmap string json :=
  <["title" := JStr "Crash on save"]>
  (<["description" := JStr "The editor crashes"]>
  (<["priority" := JStr "high"]> ∅)).

Definition closed_report : gmap string json := <["status" := JStr "closed"]> crash_report.

Definition close_it : gmap string json := <["status" := JStr "closed"]> ∅.




Definition one_bug : DB := (POST_bugs 10 crash_report init_db).2.

Definition two_bugs : DB := (POST_bugs 20 closed_report one_bug).2.

(** * Statements and what they return *)

Lemma sql_eqb_text s lit : sql_eqb (SqlText s) (SqlText lit) = bool_decide (s = lit).
Proof.
  unfold sql_eqb. apply bool_decide_ext. split.
  - intros (_ & _ & [= ->]). done.
  - intros ->. done.
Qed.

Lemma sql_eqb_true a b : sql_eqb a b = true ↔ a = b ∧ b ≠ SqlNull.
Proof.
  unfold sql_eqb. rewrite bool_decide_eq_true. split.
  - intros (_ & ? & ->). done.
  - intros [-> ?]. done.
Qed.

Lemma has_bug_id_true bug_id r :
  has_bug_id bug_id r = true ↔ col r "bug_id" = SqlInt bug_id.
Proof.
  unfold has_bug_id, row_matches. rewrite sql_eqb_true.
  split; [by intros [? _] | by intros ->].
Qed.

Section executor.
Context (now : Z) (params : gmap string pyval) (t : table) (db : DB).

Lemma exec_update_run sets w ret v sets' :
  eval_expr now params w.2 = Some v →
  Forall2 (λ ce cv, pair ce.1 <$> eval_expr now params ce.2 = Some cv) sets sets' →
  NoDup sets.*1 → sets.*1 ⊆ columns t → w.1 ∈ columns t →
  exec_update now params t sets w ret db =
    Some (project (Col <$> ret) ∘ assign sets' <$>
            filter (λ r, row_matches w.1 v r = true) (rows_of t db),
          set_rows t ((λ r, if row_matches w.1 v r then assign sets' r else r) <$>
                        rows_of t db) db).
Proof.
  intros Hv Hsets ? ? ?. unfold exec_update.
  rewrite Hv. simpl. apply mapM_Some in Hsets. rewrite Hsets. simpl.
  by rewrite bool_decide_eq_true_2.
Qed.

Lemma exec_insert_run cols vals ret vs :
  Forall2 (λ e v, eval_expr now params e = Some v) vals vs →
  length cols = length vs → NoDup cols → cols ⊆ columns t →
  exec_insert now params t cols vals ret db =
    let r := new_row now t db (list_to_map (zip cols vs)) in
    Some ([project (Col <$> ret) r],
          advance_seq t (set_rows t (rows_of t db ++ [r]) db)).
Proof.
  intros Hvs ? ? ?. unfold exec_insert.
  apply mapM_Some in Hvs. rewrite Hvs. simpl.
  by rewrite bool_decide_eq_true_2.
Qed.

Lemma exec_select_where_run items c e order_by v :
  eval_expr now params e = Some v →
  item_columns items ++ [c] ++ option_list (fst <$> order_by) ⊆ columns t →
  exec_select now params items t (Some (c, e)) order_by db =
    Some (project items <$>
            order_rows order_by
              (filter (λ r, row_matches c v r = true) (rows_of t db))).
Proof.
  intros Hv ?. unfold exec_select.
  rewrite bool_decide_eq_true_2 by done. by rewrite Hv.
Qed.
End executor.

(** Evaluating a list of expressions one by one. *)
Ltac eval_each :=
  repeat (apply Forall2_cons; split); try (by constructor);
  simpl; simplify_map_eq; try done;
  rewrite sql_eqb_text; unfold resolved_for; by case_bool_decide.

Lemma model_dump_supplied p : BugUpdate.model_dump true p = supplied p.
Proof. destruct p as [[t|] [d|] [pr|] [s|]]; reflexivity. Qed.

Lemma set_rows_same t db : set_rows t (rows_of t db) db = db.
Proof. by destruct t, db. Qed.

Lemma update_bug_run now bug_id p db :
  update_bug now bug_id p db =
    if supplied p is [] then
      (Raise (HTTPException 400 "No fields provided for update"), db)
    else
      let db' :=
        set_rows bugs
          ((λ r, if has_bug_id bug_id r then assign (set_clause now p) r else r) <$>
             bugs_rows db) db in
      match filter (λ r, has_bug_id bug_id r = true) (bugs_rows db) with
      | [] => (Raise (HTTPException 404 "Bug not found"), db')
      | r :: _ =>
          (Return (project (Col <$> bug_columns) (assign (set_clause now p) r)), db')
      end.
Proof.
  unfold update_bug. rewrite model_dump_supplied.
  remember (set_clause now p) as sc eqn:Hsc. unfold set_clause in Hsc.
  destruct p as [[t|] [d|] [pr|] [s|]]; simpl in *.
  16: reflexivity.
  all: try rewrite bool_decide_eq_true_2 by (simplify_map_eq; eauto).
  all: try rewrite bool_decide_eq_false_2 by (simplify_map_eq; by intros [? ?]).
  all: unfold begin, mbind, io_bind, execute.
  all: rewrite (exec_update_run now _ bugs db _ _ _ (SqlInt bug_id) sc);
    [ change (rows_of bugs db) with (bugs_rows db);
      change (λ r : row, row_matches ("bug_id", EParam "bug_id").1 (SqlInt bug_id) r = true)
        with (λ r : row, has_bug_id bug_id r = true);
      by destruct (filter _ (bugs_rows db))
    | simpl; by simplify_map_eq
    | subst sc; eval_each
    | compute_done
    | compute_done
    | compute_done ].
Qed.

Lemma new_bug_row now db p :
  new_row now bugs db
    (list_to_map
       (zip ["title"; "description"; "priority"; "status";
             "created_at"; "updated_at"; "resolved_at"]
            [SqlText (BugCreate.title p); SqlText (BugCreate.description p);
             SqlText (BugCreate.priority p); SqlText (BugCreate.status p);
             SqlTime now; SqlTime now; resolved_for now (BugCreate.status p)]))
  = created_bug now (bugs_bug_id_seq db) p.
Proof. unfold new_row, created_bug. simpl. by simplify_map_eq. Qed.

Lemma project_created_bug now bug_id p :
  project (Col <$> bug_columns) (created_bug now bug_id p) = created_bug now bug_id p.
Proof. unfold created_bug, col. simpl. by simplify_map_eq. Qed.

Lemma create_bug_run now p db :
  create_bug now p db =
    let r := created_bug now (bugs_bug_id_seq db) p in
    (Return r,
     mkDB (bugs_rows db ++ [r]) (bug_comments_rows db)
          (bugs_bug_id_seq db + 1) (bug_comments_comment_id_seq db)).
Proof.
  unfold create_bug, begin, mbind, io_bind, execute.
  rewrite (exec_insert_run now _ bugs db _ _ _
    [SqlText (BugCreate.title p); SqlText (BugCreate.description p);
     SqlText (BugCreate.priority p); SqlText (BugCreate.status p);
     SqlTime now; SqlTime now; resolved_for now (BugCreate.status p)]);
    [ | | reflexivity | compute_done | compute_done ].
  - cbv zeta. rewrite new_bug_row, project_created_bug. reflexivity.
  - unfold BugCreate.model_dump, resolved_at_rule. eval_each.
Qed.

Lemma new_comment_row now db bug_id p :
  new_row now bug_comments db
    (list_to_map
       (zip ["bug_id"; "author"; "comment"]
            [SqlInt bug_id; SqlText (CommentCreate.author p);
             SqlText (CommentCreate.comment p)]))
  = created_comment now (bug_comments_comment_id_seq db) bug_id p.
Proof. unfold new_row, created_comment. simpl. by simplify_map_eq. Qed.

Lemma project_created_comment now comment_id bug_id p :
  project (Col <$> comment_columns) (created_comment now comment_id bug_id p)
  = created_comment now comment_id bug_id p.
Proof. unfold created_comment, col. simpl. by simplify_map_eq. Qed.

Lemma add_comment_run now bug_id p db :
  add_comment now bug_id p db =
    match filter (λ r, has_bug_id bug_id r = true) (bugs_rows db) with
    | [] => (Raise (HTTPException 404 "Bug not found"), db)
    | _ :: _ =>
        let r := created_comment now (bug_comments_comment_id_seq db) bug_id p in
        (Return r,
         mkDB (bugs_rows db) (bug_comments_rows db ++ [r])
              (bugs_bug_id_seq db) (bug_comments_comment_id_seq db + 1))
    end.
Proof.
  unfold add_comment, connect, begin, mbind, io_bind, execute.
  rewrite (exec_select_where_run now _ bugs db _ _ _ _ (SqlInt bug_id));
    [ | simpl; by simplify_map_eq | compute_done ].
  change (rows_of bugs db) with (bugs_rows db).
  change (λ r : row, row_matches "bug_id" (SqlInt bug_id) r = true)
    with (λ r : row, has_bug_id bug_id r = true).
  destruct (filter _ (bugs_rows db)); [reflexivity|].
  cbn [order_rows fmap list_fmap first head mret io_ret fst].
  rewrite (exec_insert_run now _ bug_comments db _ _ _
    [SqlInt bug_id; SqlText (CommentCreate.author p);
     SqlText (CommentCreate.comment p)]);
    [ | | reflexivity | compute_done | compute_done ].
  - cbv zeta. rewrite new_comment_row, project_created_comment. reflexivity.
  - eval_each.
Qed.

Lemma list_bugs_run now db :
  list_bugs now db =
    (Return (project (Col <$> bug_columns) <$>
               merge_sort (row_le "bug_id" Desc) (bugs_rows db)), db).
Proof.
  unfold list_bugs, connect, mbind, io_bind, execute, exec_select.
  by rewrite bool_decide_eq_true_2 by compute_done.
Qed.

Lemma get_bug_run now bug_id db :
  get_bug now bug_id db =
    match filter (λ r, has_bug_id bug_id r = true) (bugs_rows db) with
    | [] => (Raise (HTTPException 404 "Bug not found"), db)
    | r :: _ => (Return (project (Col <$> bug_columns) r), db)
    end.
Proof.
  unfold get_bug, connect, mbind, io_bind, execute.
  rewrite (exec_select_where_run now _ bugs db _ _ _ _ (SqlInt bug_id));
    [ | simpl; by simplify_map_eq | compute_done ].
  change (rows_of bugs db) with (bugs_rows db).
  change (λ r : row, row_matches "bug_id" (SqlInt bug_id) r = true)
    with (λ r : row, has_bug_id bug_id r = true).
  by destruct (filter _ (bugs_rows db)).
Qed.

Lemma list_comments_run now bug_id db :
  list_comments now bug_id db =
    (Return (project (Col <$> comment_columns) <$>
               merge_sort (row_le "created_at" Asc)
                 (filter (λ r, has_bug_id bug_id r = true) (bug_comments_rows db))),
     db).
Proof.
  unfold list_comments, connect, mbind, io_bind, execute.
  rewrite (exec_select_where_run now _ bug_comments db _ _ _ _ (SqlInt bug_id));
    [ | simpl; by simplify_map_eq | compute_done ].
  reflexivity.
Qed.

(** * Rows: projection and assignment *)

Lemma lookup_project cols r c :
  project (Col <$> cols) r !! c = if decide (c ∈ cols) then Some (col r c) else None.
Proof.
  induction cols as [|c' cols IH].
  { rewrite fmap_nil. cbn [project]. rewrite lookup_empty.
    rewrite decide_False; [done|]. apply not_elem_of_nil. }
  rewrite fmap_cons. cbn [project].
  - destruct (decide (c' = c)) as [->|Hne].
    + rewrite lookup_insert_eq. rewrite decide_True by left. done.
    + rewrite lookup_insert_ne by done. rewrite IH.
      destruct (decide (c ∈ cols)).
      * rewrite decide_True by (by right). done.
      * rewrite decide_False; [done|]. by intros [->|?]%elem_of_cons.
Qed.

Lemma col_project cols r c :
  c ∈ cols → col (project (Col <$> cols) r) c = col r c.
Proof. intros ?. unfold col at 1. rewrite lookup_project, decide_True; done. Qed.

Lemma lookup_assign_notin sets (r : row) c :
  c ∉ sets.*1 → assign sets r !! c = r !! c.
Proof.
  unfold assign. revert r. induction sets as [|[c' v] sets IH]; intros r Hc; simpl.
  - done.
  - rewrite IH by set_solver. apply lookup_insert_ne. set_solver.
Qed.

Lemma lookup_assign_in sets (r : row) c v :
  NoDup sets.*1 → (c, v) ∈ sets → assign sets r !! c = Some v.
Proof.
  unfold assign. revert r. induction sets as [|[c' v'] sets IH]; intros r Hnd Hin; simpl.
  - by apply elem_of_nil in Hin.
  - apply NoDup_cons in Hnd as [Hc' Hnd]. apply elem_of_cons in Hin as [[= -> ->]|Hin].
    + fold (assign sets (<[c':=v']> r)). rewrite lookup_assign_notin by done.
      apply lookup_insert_eq.
    + by apply IH.
Qed.

Lemma col_assign_notin sets r c : c ∉ sets.*1 → col (assign sets r) c = col r c.
Proof. intros ?. unfold col. by rewrite lookup_assign_notin. Qed.

Lemma col_assign_in sets r c v :
  NoDup sets.*1 → (c, v) ∈ sets → col (assign sets r) c = v.
Proof. intros ? ?. unfold col. by erewrite lookup_assign_in. Qed.

(** * The SET clause of update_bug *)

Lemma supplied_keys p : (supplied p).*1 ⊆ updatable.
Proof. destruct p as [[t|] [d|] [pr|] [s|]]; compute_done. Qed.

Lemma supplied_NoDup p : NoDup (supplied p).*1.
Proof. destruct p as [[t|] [d|] [pr|] [s|]]; compute_done. Qed.

Lemma elem_of_supplied p k v :
  (k, v) ∈ supplied p ↔
    ∃ s, v = PyStr s ∧
      ((k = "title" ∧ BugUpdate.title p = Some s) ∨
       (k = "description" ∧ BugUpdate.description p = Some s) ∨
       (k = "priority" ∧ BugUpdate.priority p = Some s) ∨
       (k = "status" ∧ BugUpdate.status p = Some s)).
Proof.
  unfold supplied, item.
  destruct p as [[t|] [d|] [pr|] [s|]]; simpl;
    rewrite ?elem_of_cons, ?elem_of_nil; naive_solver.
Qed.


Lemma set_clause_keys now p :
  (set_clause now p).*1 =
    (supplied p).*1 ++
    (if BugUpdate.status p is Some _ then ["resolved_at"] else []) ++ ["updated_at"].
Proof.
  unfold set_clause. rewrite fmap_app, <- list_fmap_compose.
  f_equal. by destruct (BugUpdate.status p).
Qed.

Lemma set_clause_NoDup now p : NoDup (set_clause now p).*1.
Proof.
  rewrite set_clause_keys. destruct p as [[t|] [d|] [pr|] [s|]]; compute_done.
Qed.

(** What one matching row looks like after the UPDATE of [update_bug]. *)
Lemma patched_row now p r :
  let r' := assign (set_clause now p) r in
  col r' "updated_at" = SqlTime now ∧
  (∀ k s, (k, PyStr s) ∈ supplied p → col r' k = SqlText s) ∧
  (∀ s, BugUpdate.status p = Some s → col r' "resolved_at" = resolved_for now s) ∧
  (∀ c, c ∉ (supplied p).*1 → c ≠ "updated_at" →
        (c = "resolved_at" → BugUpdate.status p = None) → r' !! c = r !! c).
Proof.
  pose proof (set_clause_NoDup now p) as Hnd.
  cbv zeta. split_and!.
  - apply col_assign_in; [done|]. unfold set_clause. set_solver.
  - intros k s Hk. apply col_assign_in; [done|]. unfold set_clause.
    apply elem_of_app. left.
    by apply (list_elem_of_fmap_2' _ _ (k, PyStr s)).
  - intros s Hs. apply col_assign_in; [done|]. unfold set_clause. rewrite Hs.
    set_solver.
  - intros c Hc Hup Hres. apply lookup_assign_notin. rewrite set_clause_keys.
    rewrite !elem_of_app. intros [?|[Hin|Hin]]; [done| |].
    + destruct (BugUpdate.status p); [|by apply elem_of_nil in Hin].
      apply list_elem_of_singleton in Hin. by specialize (Hres Hin).
    + by apply list_elem_of_singleton in Hin.
Qed.

(** * Ordering *)

#[global] Instance sqlval_le_total : Total sqlval_le.
Proof.
  intros [|x|x|x] [|y|y|y]; simpl; auto; try lia.
  apply (total String.le).
Qed.

#[global] Instance sqlval_le_trans : Transitive sqlval_le.
Proof.
  intros [|x|x|x] [|y|y|y] [|z|z|z]; simpl; try done; try lia.
  apply (transitivity (R:=String.le)).
Qed.

#[global] Instance row_le_total c o : Total (row_le c o).
Proof. destruct o; intros r1 r2; simpl; apply sqlval_le_total. Qed.

#[global] Instance row_le_trans c o : Transitive (row_le c o).
Proof. destruct o; intros r1 r2 r3; simpl; eauto using sqlval_le_trans. Qed.

(** * Routes *)

Lemma fmap_no_hit {A} (hit : A → bool) (f : A → A) (l : list A) :
  filter (λ r, hit r = true) l = [] → (λ r, if hit r then f r else r) <$> l = l.
Proof.
  induction l as [|x l IH]; [done|]. rewrite filter_cons, fmap_cons.
  destruct (hit x) eqn:Hx.
  - by rewrite decide_True.
  - rewrite decide_False by done. intros ?. by rewrite IH.
Qed.

Lemma filter_nil_Exists {A} (P : A → Prop) `{!∀ x, Decision (P x)} (l : list A) :
  filter P l = [] ↔ ¬ Exists P l.
Proof.
  induction l as [|x l IH].
  - split; [|done]. intros _ H'. inversion H'.
  - rewrite filter_cons, Exists_cons. destruct (decide (P x)).
    + split; [done|]. intros []. by left.
    + rewrite IH. tauto.
Qed.

Lemma filter_hit_nil bug_id db :
  filter (λ r, has_bug_id bug_id r = true) (bugs_rows db) = [] ↔ ¬ bug_exists bug_id db.
Proof. apply filter_nil_Exists. Qed.

Lemma patched_db_no_hit now bug_id p db :
  ¬ bug_exists bug_id db → patched_db now bug_id p db = db.
Proof.
  intros Hno%filter_hit_nil. unfold patched_db.
  rewrite (fmap_no_hit (has_bug_id bug_id)) by done. apply (set_rows_same bugs).
Qed.

Lemma serve_update_bug now bug_id p db :
  serve 200 (update_bug now bug_id p) db =
    if supplied p is [] then
      (ErrorResponse 400 "No fields provided for update", db)
    else
      match filter (λ r, has_bug_id bug_id r = true) (bugs_rows db) with
      | [] => (ErrorResponse 404 "Bug not found", db)
      | r :: _ =>
          (Response 200 (project (Col <$> bug_columns) (assign (set_clause now p) r)),
           patched_db now bug_id p db)
      end.
Proof.
  unfold serve. rewrite update_bug_run. destruct (supplied p); [done|].
  cbv zeta. fold (patched_db now bug_id p db).
  destruct (filter _ (bugs_rows db)) eqn:Hf; [|done].
  by rewrite patched_db_no_hit by by apply filter_hit_nil.
Qed.

Lemma PATCH_bug_run now bug_id body db :
  PATCH_bug now bug_id body db =
    match BugUpdate.validate body with
    | None => (ErrorResponse 422 "Unprocessable Entity", db)
    | Some p =>
        if supplied p is [] then
          (ErrorResponse 400 "No fields provided for update", db)
        else
          match filter (λ r, has_bug_id bug_id r = true) (bugs_rows db) with
          | [] => (ErrorResponse 404 "Bug not found", db)
          | r :: _ =>
              (Response 200 (project (Col <$> bug_columns) (assign (set_clause now p) r)),
               patched_db now bug_id p db)
          end
    end.
Proof.
  unfold PATCH_bug, validated.
  destruct (BugUpdate.validate body) as [p|]; [|done].
  apply serve_update_bug.
Qed.

Lemma POST_bugs_run now body db :
  POST_bugs now body db =
    match BugCreate.validate body with
    | None => (ErrorResponse 422 "Unprocessable Entity", db)
    | Some p =>
        let r := created_bug now (bugs_bug_id_seq db) p in
        (Response 201 r,
         mkDB (bugs_rows db ++ [r]) (bug_comments_rows db)
              (bugs_bug_id_seq db + 1) (bug_comments_comment_id_seq db))
    end.
Proof.
  unfold POST_bugs, validated, serve.
  destruct (BugCreate.validate body) as [p|]; [|done].
  by rewrite create_bug_run.
Qed.

Lemma POST_comments_run now bug_id body db :
  POST_comments now bug_id body db =
    match CommentCreate.validate body with
    | None => (ErrorResponse 422 "Unprocessable Entity", db)
    | Some p =>
        match filter (λ r, has_bug_id bug_id r = true) (bugs_rows db) with
        | [] => (ErrorResponse 404 "Bug not found", db)
        | _ :: _ =>
            let r := created_comment now (bug_comments_comment_id_seq db) bug_id p in
            (Response 201 r,
             mkDB (bugs_rows db) (bug_comments_rows db ++ [r])
                  (bugs_bug_id_seq db) (bug_comments_comment_id_seq db + 1))
        end
    end.
Proof.
  unfold POST_comments, validated, serve.
  destruct (CommentCreate.validate body) as [p|]; [|done].
  rewrite add_comment_run. by destruct (filter _ (bugs_rows db)).
Qed.

Lemma GET_bugs_run now db :
  GET_bugs now db =
    (Response 200 (project (Col <$> bug_columns) <$>
                     merge_sort (row_le "bug_id" Desc) (bugs_rows db)), db).
Proof. unfold GET_bugs, serve. by rewrite list_bugs_run. Qed.

Lemma GET_comments_run now bug_id db :
  GET_comments now bug_id db =
    (Response 200 (project (Col <$> comment_columns) <$>
                     merge_sort (row_le "created_at" Asc)
                       (filter (λ r, has_bug_id bug_id r = true) (bug_comments_rows db))),
     db).
Proof. unfold GET_comments, serve. by rewrite list_comments_run. Qed.

Lemma GET_bug_state now bug_id db : (GET_bug now bug_id db).2 = db.
Proof.
  unfold GET_bug, serve. rewrite get_bug_run.
  by destruct (filter _ (bugs_rows db)).
Qed.

(** * Fields of a PATCH body *)

Lemma supplied_field p k s : (k, PyStr s) ∈ supplied p ↔ field p k = Some s.
Proof.
  rewrite elem_of_supplied. unfold field. split.
  - intros (s' & [= <-] & [[-> ?]|[[-> ?]|[[-> ?]|[-> ?]]]]); by simpl.
  - intros Hf. exists s. split; [done|].
    repeat case_bool_decide; subst; auto; done.
Qed.

Lemma not_supplied_field p k : k ∉ (supplied p).*1 ↔ field p k = None.
Proof.
  split.
  - intros Hk. destruct (field p k) as [s|] eqn:Hf; [|done].
    apply supplied_field in Hf. destruct Hk.
    by apply (list_elem_of_fmap_2' _ _ (k, PyStr s)).
  - intros Hf [[k' v] [-> Hin]]%list_elem_of_fmap. simpl in Hf.
    pose proof Hin as (s & -> & _)%elem_of_supplied.
    apply supplied_field in Hin. congruence.
Qed.


(** * The closed-iff-resolved invariant *)

Lemma resolved_for_not_null now s : resolved_for now s ≠ SqlNull ↔ s = "closed".
Proof. unfold resolved_for. case_bool_decide; split; done. Qed.

Lemma col_created_bug now bug_id p :
  let r := created_bug now bug_id p in
  col r "bug_id" = SqlInt bug_id ∧
  col r "title" = SqlText (BugCreate.title p) ∧
  col r "description" = SqlText (BugCreate.description p) ∧
  col r "priority" = SqlText (BugCreate.priority p) ∧
  col r "status" = SqlText (BugCreate.status p) ∧
  col r "created_at" = SqlTime now ∧
  col r "updated_at" = SqlTime now ∧
  col r "resolved_at" = resolved_for now (BugCreate.status p).
Proof. unfold created_bug, col. cbv zeta. by simplify_map_eq. Qed.

Lemma created_bug_resolved now bug_id p : resolved_iff_closed (created_bug now bug_id p).
Proof.
  destruct (col_created_bug now bug_id p) as (_ & _ & _ & _ & Hs & _ & _ & Hr).
  unfold resolved_iff_closed. rewrite Hs, Hr, resolved_for_not_null.
  split; [by intros -> | by intros [= ->]].
Qed.

Lemma patched_row_resolved now p r :
  resolved_iff_closed r → resolved_iff_closed (assign (set_clause now p) r).
Proof.
  destruct (patched_row now p r) as (_ & Hsup & Hres & Hframe).
  unfold resolved_iff_closed. intros Hinv.
  destruct (BugUpdate.status p) as [s|] eqn:Hs.
  - rewrite (Hres s eq_refl), (Hsup "status" s), resolved_for_not_null.
    + split; [by intros -> | by intros [= ->]].
    + apply supplied_field. unfold field. by simpl.
  - unfold col in *. rewrite !Hframe; try done.
    + apply not_supplied_field. unfold field. by simpl.
    + apply not_supplied_field. by unfold field.
Qed.

Lemma POST_bugs_resolved now body db :
  resolved_invariant db → resolved_invariant (POST_bugs now body db).2.
Proof.
  intros Hinv. rewrite POST_bugs_run.
  destruct (BugCreate.validate body) as [p|]; [|done].
  unfold resolved_invariant. simpl. apply Forall_app. split; [done|].
  apply Forall_singleton, created_bug_resolved.
Qed.

Lemma patched_db_resolved now bug_id p db :
  resolved_invariant db → resolved_invariant (patched_db now bug_id p db).
Proof.
  unfold resolved_invariant, patched_db. simpl. intros Hinv.
  apply Forall_fmap. eapply Forall_impl; [exact Hinv|].
  intros r Hr. simpl. destruct (has_bug_id bug_id r); [|done].
  by apply patched_row_resolved.
Qed.

Lemma PATCH_bug_resolved now bug_id body db :
  resolved_invariant db → resolved_invariant (PATCH_bug now bug_id body db).2.
Proof.
  intros Hinv. rewrite PATCH_bug_run.
  destruct (BugUpdate.validate body) as [p|]; [|done].
  destruct (supplied p); [done|].
  destruct (filter _ (bugs_rows db)); [done|].
  by apply patched_db_resolved.
Qed.

Lemma POST_comments_bugs now bug_id body db :
  bugs_rows (POST_comments now bug_id body db).2 = bugs_rows db ∧
  bugs_bug_id_seq (POST_comments now bug_id body db).2 = bugs_bug_id_seq db.
Proof.
  rewrite POST_comments_run.
  destruct (CommentCreate.validate body) as [p|]; [|done].
  by destruct (filter _ (bugs_rows db)).
Qed.

Lemma step_resolved db db' : step db db' → resolved_invariant db → resolved_invariant db'.
Proof.
  intros [] Hinv.
  - by rewrite GET_bugs_run.
  - by apply POST_bugs_resolved.
  - by rewrite GET_bug_state.
  - by apply PATCH_bug_resolved.
  - unfold resolved_invariant. by rewrite (proj1 (POST_comments_bugs _ _ _ _)).
  - by rewrite GET_comments_run.
Qed.

(** C1. For every reachable bug record, [resolved_at] is non-null if and
    only if [status] is ['closed'].  The empty table satisfies the invariant,
    the row a POST /bugs creates satisfies it, and POST /bugs and every
    PATCH /bugs/{id}, whatever its body (with or without [status], valid or
    not), keep it; so it holds in every reachable state. *)
Theorem resolved_at_iff_status_closed :
  resolved_invariant init_db ∧
  (∀ now body db r, (POST_bugs now body db).1 = Response 201 r → resolved_iff_closed r) ∧
  (∀ now body db,
     resolved_invariant db → resolved_invariant (POST_bugs now body db).2) ∧
  (∀ now bug_id body db,
     resolved_invariant db → resolved_invariant (PATCH_bug now bug_id body db).2) ∧
  (∀ db, reachable db → resolved_invariant db).
Proof.
  split_and!.
  - constructor.
  - intros now body db r. rewrite POST_bugs_run.
    destruct (BugCreate.validate body) as [p|]; [|done].
    intros [= <-]. apply created_bug_resolved.
  - apply POST_bugs_resolved.
  - apply PATCH_bug_resolved.
  - induction 1 as [|db db' _ IH Hstep]; [constructor|].
    by eapply step_resolved.
Qed.

Lemma resolved_at_iff_status_closed_witness :
  resolved_invariant init_db ∧
  resolved_invariant one_bug ∧
  resolved_invariant (PATCH_bug 30 1 close_it one_bug).2.
Proof.
  destruct resolved_at_iff_status_closed as (_ & _ & Hpost & Hpatch & _).
  assert (resolved_invariant init_db) as Hinit by constructor.
  assert (resolved_invariant one_bug) as Hone
    by exact (Hpost 10 crash_report init_db Hinit).
  split_and!; [exact Hinit | exact Hone | exact (Hpatch 30 1 close_it one_bug Hone)].
Defined.

(** * Partial update *)

Lemma filter_hit_cons bug_id db :
  bug_exists bug_id db →
  ∃ r rs, filter (λ r, has_bug_id bug_id r = true) (bugs_rows db) = r :: rs ∧
          r ∈ bugs_rows db ∧ has_bug_id bug_id r = true.
Proof.
  intros Hex. destruct (filter _ (bugs_rows db)) as [|r rs] eqn:Hf.
  - by apply filter_hit_nil in Hf.
  - exists r, rs. split; [done|].
    assert (r ∈ filter (λ r, has_bug_id bug_id r = true) (bugs_rows db)) as Hin
      by (rewrite Hf; left).
    apply list_elem_of_filter in Hin as [? ?]. done.
Qed.

Lemma Forall2_fmap_self {A} (P : A → A → Prop) (f : A → A) (l : list A) :
  (∀ x, x ∈ l → P x (f x)) → Forall2 P l (f <$> l).
Proof.
  intros HP. apply Forall2_fmap_r, Forall2_same_length_lookup_2; [done|].
  intros i x y Hx Hy. simplify_eq. eapply HP, list_elem_of_lookup_2; eauto.
Qed.

(** The UPDATE does not move a row from one bug to another. *)
Lemma patched_row_bug_id now p r : col (assign (set_clause now p) r) "bug_id" = col r "bug_id".
Proof.
  destruct (patched_row now p r) as (_ & _ & _ & Hframe).
  unfold col. rewrite Hframe; try done.
  intros Hin%supplied_keys. revert Hin. compute_done.
Qed.


Lemma one_bug_exists : bug_exists 1 one_bug.
Proof. apply Exists_exists. eexists. split; [left|]. by vm_compute. Defined.









(** * Creating bugs and comments *)






Lemma one_bug_only bug_id : bug_id ≠ 1 → ¬ bug_exists bug_id one_bug.
Proof.
  intros Hne (r & Hr & Hhit)%Exists_exists.
  unfold one_bug in Hr. rewrite POST_bugs_run in Hr.
  replace (BugCreate.validate crash_report) with
    (Some (BugCreate.mk "Crash on save" "The editor crashes" "high" "open")) in Hr
    by (vm_compute; reflexivity).
  apply list_elem_of_singleton in Hr. subst r.
  apply has_bug_id_true in Hhit.
  rewrite (proj1 (col_created_bug _ _ _)) in Hhit. by injection Hhit as <-.
Defined.


(** * Identifiers in reachable states *)

Lemma POST_bugs_pkey now body db :
  ids_below_seq db → bugs_pkey (bugs_rows db) →
  ids_below_seq (POST_bugs now body db).2 ∧ bugs_pkey (bugs_rows (POST_bugs now body db).2).
Proof.
  intros Hbelow [Hint Hnd]. rewrite POST_bugs_run.
  destruct (BugCreate.validate body) as [p|]; [|done].
  destruct (col_created_bug now (bugs_bug_id_seq db) p) as (Hid & _).
  cbv zeta in *. unfold ids_below_seq, bugs_pkey. cbn [snd bugs_rows bugs_bug_id_seq].
  split_and!.
  - apply Forall_app. split.
    + eapply Forall_impl; [exact Hbelow|]. intros r (n & ? & ?). exists n. split; [done|lia].
    + apply Forall_singleton. eexists. split; [exact Hid|lia].
  - apply Forall_app. split; [done|]. apply Forall_singleton. by eexists.
  - rewrite fmap_app. apply NoDup_app. split_and!; [done| |apply NoDup_singleton].
    intros v Hv Hv'. apply list_elem_of_singleton in Hv'. cbn in Hv'.
    apply list_elem_of_fmap in Hv as (r & -> & Hr).
    pose proof (proj1 (Forall_forall _ _) Hbelow r Hr) as (n & Hn & Hlt).
    rewrite Hid, Hn in Hv'. injection Hv' as ->. lia.
Qed.

Lemma patched_db_ids now bug_id p db :
  (λ r, col r "bug_id") <$> bugs_rows (patched_db now bug_id p db)
  = (λ r, col r "bug_id") <$> bugs_rows db.
Proof.
  unfold patched_db. cbn [set_rows bugs_rows]. rewrite <- list_fmap_compose.
  apply list_fmap_ext. intros i r _. cbn [compose].
  destruct (has_bug_id bug_id r); [apply patched_row_bug_id|done].
Qed.

Lemma PATCH_bug_pkey now bug_id body db :
  ids_below_seq db → bugs_pkey (bugs_rows db) →
  ids_below_seq (PATCH_bug now bug_id body db).2 ∧
  bugs_pkey (bugs_rows (PATCH_bug now bug_id body db).2).
Proof.
  intros Hbelow Hkey. rewrite PATCH_bug_run.
  destruct (BugUpdate.validate body) as [p|]; [|done].
  destruct (supplied p); [done|].
  destruct (filter _ (bugs_rows db)); [done|]. cbn [snd].
  pose proof (patched_db_ids now bug_id p db) as Hids.
  unfold ids_below_seq, bugs_pkey in *.
  change (bugs_bug_id_seq (patched_db now bug_id p db)) with (bugs_bug_id_seq db).
  rewrite <- (Forall_fmap (λ r : row, col r "bug_id")
                (λ v, ∃ n, v = SqlInt n ∧ n < bugs_bug_id_seq db)) in *.
  rewrite <- (Forall_fmap (λ r : row, col r "bug_id") (λ v, ∃ n, v = SqlInt n)) in *.
  rewrite Hids. done.
Qed.

Lemma reachable_pkey db : reachable db → ids_below_seq db ∧ bugs_pkey (bugs_rows db).
Proof.
  induction 1 as [|db db' _ [Hbelow Hkey] Hstep].
  - unfold ids_below_seq, bugs_pkey. cbn. split_and!; constructor.
  - destruct Hstep.
    + by rewrite GET_bugs_run.
    + by apply POST_bugs_pkey.
    + by rewrite GET_bug_state.
    + by apply PATCH_bug_pkey.
    + destruct (POST_comments_bugs now bug_id body db) as [Hrows Hseq].
      unfold ids_below_seq. by rewrite Hrows, Hseq.
    + by rewrite GET_comments_run.
Qed.

(** * Rows of reachable states have the columns of their table *)

Lemma project_has_columns t r :
  has_columns t r → project (Col <$> columns t) r = r.
Proof.
  unfold has_columns. intros Hdom. apply map_eq. intros c.
  rewrite lookup_project. destruct (decide (c ∈ columns t)) as [Hc|Hc].
  - assert (c ∈ dom r) as [v Hv]%elem_of_dom by (rewrite Hdom; set_solver).
    unfold col. by rewrite Hv.
  - symmetry. apply not_elem_of_dom. rewrite Hdom. set_solver.
Qed.

Lemma created_bug_columns now bug_id p : has_columns bugs (created_bug now bug_id p).
Proof.
  unfold has_columns, created_bug. rewrite !dom_insert_L, dom_empty_L.
  simpl. set_solver.
Qed.

Lemma created_comment_columns now comment_id bug_id p :
  has_columns bug_comments (created_comment now comment_id bug_id p).
Proof.
  unfold has_columns, created_comment. rewrite !dom_insert_L, dom_empty_L.
  simpl. set_solver.
Qed.

Lemma dom_assign sets (r : row) : dom (assign sets r) = list_to_set sets.*1 ∪ dom r.
Proof.
  unfold assign. revert r. induction sets as [|[c v] sets IH]; intros r; simpl.
  - set_solver.
  - rewrite IH, dom_insert_L. set_solver.
Qed.

Lemma set_clause_columns now p : (set_clause now p).*1 ⊆ columns bugs.
Proof.
  rewrite set_clause_keys. pose proof (supplied_keys p) as Hk.
  intros c [Hc|[Hc|Hc]%elem_of_app]%elem_of_app.
  - assert (updatable ⊆ columns bugs) as Hu by compute_done. by apply Hu, Hk.
  - destruct (BugUpdate.status p); [|by apply elem_of_nil in Hc].
    apply list_elem_of_singleton in Hc as ->. compute_done.
  - apply list_elem_of_singleton in Hc as ->. compute_done.
Qed.

Lemma patched_row_columns now p r :
  has_columns bugs r → has_columns bugs (assign (set_clause now p) r).
Proof.
  unfold has_columns. intros Hdom. rewrite dom_assign, Hdom.
  pose proof (set_clause_columns now p) as Hsub.
  apply set_eq. intros c. rewrite elem_of_union, !elem_of_list_to_set.
  split; [intros [?|?]; auto | auto].
Qed.

Lemma reachable_schema db : reachable db → schema_invariant db.
Proof.
  induction 1 as [|db db' _ [Hbugs Hcomments] Hstep].
  - split; constructor.
  - destruct Hstep.
    + by rewrite GET_bugs_run.
    + rewrite POST_bugs_run.
      destruct (BugCreate.validate body) as [p|]; [|done].
      split; [|done]. apply Forall_app. split; [done|].
      apply Forall_singleton, created_bug_columns.
    + by rewrite GET_bug_state.
    + rewrite PATCH_bug_run.
      destruct (BugUpdate.validate body) as [p|]; [|done].
      destruct (supplied p); [done|].
      destruct (filter _ (bugs_rows db)); [done|].
      split; [|done]. unfold patched_db. cbn [snd set_rows bugs_rows].
      apply Forall_fmap. eapply Forall_impl; [exact Hbugs|].
      intros r Hr. cbn [compose]. destruct (has_bug_id bug_id r); [|done].
      by apply patched_row_columns.
    + rewrite POST_comments_run.
      destruct (CommentCreate.validate body) as [p|]; [|done].
      destruct (filter _ (bugs_rows db)); [done|].
      split; [done|]. apply Forall_app. split; [done|].
      apply Forall_singleton, created_comment_columns.
    + by rewrite GET_comments_run.
Qed.

Lemma project_rows t rows :
  Forall (has_columns t) rows → project (Col <$> columns t) <$> rows = rows.
Proof.
  intros Hall. rewrite <- (list_fmap_id rows) at 2.
  apply Forall_fmap_ext_1. eapply Forall_impl; [exact Hall|].
  intros r Hr. by apply project_has_columns.
Qed.

(** * Listing *)

Lemma bugs_pkey_Permutation rows rows' : rows ≡ₚ rows' → bugs_pkey rows → bugs_pkey rows'.
Proof. intros Hperm [Hint Hnd]. split; by rewrite <- Hperm. Qed.

Lemma sorted_desc_id_gt rows :
  bugs_pkey rows → StronglySorted (row_le "bug_id" Desc) rows → StronglySorted id_gt rows.
Proof.
  intros [Hint Hnd] Hsorted.
  induction Hsorted as [|r rows Hsorted IH Hall]; [constructor|].
  apply Forall_cons in Hint as [[n Hn] Hint].
  rewrite fmap_cons in Hnd. apply NoDup_cons in Hnd as [Hfresh Hnd].
  constructor; [by apply IH|].
  apply Forall_forall. intros r2 Hr2.
  pose proof (proj1 (Forall_forall _ _) Hall r2 Hr2) as Hle.
  pose proof (proj1 (Forall_forall _ _) Hint r2 Hr2) as [n2 Hn2].
  exists n, n2. split_and!; [done..|].
  simpl in Hle. rewrite Hn, Hn2 in Hle. simpl in Hle.
  assert (n ≠ n2); [|lia]. intros ->. apply Hfresh.
  rewrite Hn, <- Hn2. by apply (list_elem_of_fmap_2 (λ r, col r "bug_id")).
Qed.

Lemma id_gt_project r1 r2 :
  id_gt r1 r2 → id_gt (project (Col <$> bug_columns) r1) (project (Col <$> bug_columns) r2).
Proof.
  intros (n1 & n2 & ? & ? & ?). exists n1, n2.
  rewrite !col_project by compute_done. done.
Qed.

(** C7. GET /bugs answers 200 with one row per row of the bugs table and
    changes nothing; the rows come in strictly descending order of identifier
    whenever [bug_id] identifies the rows of the table.  In every reachable
    state it does, and the answer is the bugs table itself, reordered. *)
Theorem list_bugs_descending now db :
  ∃ rows,
    GET_bugs now db = (Response 200 rows, db) ∧
    rows ≡ₚ project (Col <$> bug_columns) <$> bugs_rows db ∧
    (bugs_pkey (bugs_rows db) → StronglySorted id_gt rows) ∧
    (reachable db → rows ≡ₚ bugs_rows db ∧ StronglySorted id_gt rows).
Proof.
  rewrite GET_bugs_run. eexists. split; [reflexivity|].
  assert (bugs_pkey (bugs_rows db) →
          StronglySorted id_gt
            (project (Col <$> bug_columns) <$>
               merge_sort (row_le "bug_id" Desc) (bugs_rows db))) as Hsorted.
  { intros Hkey.
    apply (StronglySorted_fmap _ id_gt id_gt); [apply id_gt_project|].
    apply sorted_desc_id_gt.
    - eapply bugs_pkey_Permutation; [|exact Hkey].
      symmetry. apply merge_sort_Permutation.
    - apply StronglySorted_merge_sort; apply _. }
  split_and!.
  - by rewrite merge_sort_Permutation.
  - exact Hsorted.
  - intros Hreach. split; [|by apply Hsorted, reachable_pkey].
    rewrite merge_sort_Permutation. change bug_columns with (columns bugs).
    rewrite project_rows; [done|]. by apply reachable_schema.
Qed.


Lemma two_bugs_pkey : bugs_pkey (bugs_rows two_bugs).
Proof.
  unfold two_bugs, one_bug. rewrite !POST_bugs_run.
  replace (BugCreate.validate crash_report) with
    (Some (BugCreate.mk "Crash on save" "The editor crashes" "high" "open"))
    by (vm_compute; reflexivity).
  cbv zeta. cbn [snd bugs_rows bugs_bug_id_seq].
  replace (BugCreate.validate closed_report) with
    (Some (BugCreate.mk "Crash on save" "The editor crashes" "high" "closed"))
    by (vm_compute; reflexivity).
  cbn [snd bugs_rows bugs_bug_id_seq app init_db].
  split.
  - repeat constructor; eexists; apply col_created_bug.
  - rewrite !fmap_cons, !(proj1 (col_created_bug _ _ _)). compute_done.
Defined.

Lemma list_bugs_descending_witness :
  ∃ rows, GET_bugs 50 two_bugs = (Response 200 rows, two_bugs) ∧
          StronglySorted id_gt rows.
Proof.
  destruct (list_bugs_descending 50 two_bugs) as (rows & Hrun & _ & Hsorted & _).
  exists rows. split; [exact Hrun | exact (Hsorted two_bugs_pkey)].
Defined.

(** * Further properties of the handlers *)

(** * Reading a bug *)

Lemma GET_bug_run now bug_id db :
  GET_bug now bug_id db =
    match filter (λ r, has_bug_id bug_id r = true) (bugs_rows db) with
    | [] => (ErrorResponse 404 "Bug not found", db)
    | r :: _ => (Response 200 (project (Col <$> bug_columns) r), db)
    end.
Proof.
  unfold GET_bug, serve. rewrite get_bug_run.
  by destruct (filter _ (bugs_rows db)).
Qed.

(** X1. GET /bugs/{id} never changes the database.  It answers 404 exactly
    when no bug has the identifier; otherwise it answers 200 with a row of
    the bugs table that has this identifier, restricted to the eight columns
    of the SELECT. *)
Theorem get_bug_found_or_404 now bug_id db :
  (GET_bug now bug_id db).2 = db ∧
  (status_of (GET_bug now bug_id db).1 = 404 ↔ ¬ bug_exists bug_id db) ∧
  (¬ bug_exists bug_id db →
     (GET_bug now bug_id db).1 = ErrorResponse 404 "Bug not found") ∧
  (bug_exists bug_id db →
     ∃ r, r ∈ bugs_rows db ∧ col r "bug_id" = SqlInt bug_id ∧
          (GET_bug now bug_id db).1 = Response 200 (project (Col <$> bug_columns) r) ∧
          col (project (Col <$> bug_columns) r) "bug_id" = SqlInt bug_id).
Proof.
  rewrite GET_bug_run. pose proof (filter_hit_nil bug_id db) as Hnil.
  pose proof (filter_hit_cons bug_id db) as Hcons.
  destruct (filter _ (bugs_rows db)) as [|r rs]; cbn [fst snd status_of].
  - assert (¬ bug_exists bug_id db) as Hno by by apply Hnil.
    split_and!; [done|done|done|]. intros ?. done.
  - assert (bug_exists bug_id db) as Hex.
    { destruct (decide (bug_exists bug_id db)) as [|Hno]; [done|].
      by apply Hnil in Hno. }
    destruct (Hcons Hex) as (r' & rs' & [= <- <-] & Hin & Hhit).
    apply has_bug_id_true in Hhit.
    split_and!; [done| |done|].
    + split; [done|]. by intros [].
    + intros _. exists r. split_and!; [done..|].
      by rewrite col_project by compute_done.
Qed.

(** * Reading after writing *)

Lemma has_bug_id_assign now p bug_id r :
  has_bug_id bug_id (assign (set_clause now p) r) = has_bug_id bug_id r.
Proof.
  unfold has_bug_id, row_matches. by rewrite patched_row_bug_id.
Qed.

Lemma filter_fmap_hit {A} (hit : A → bool) (f : A → A) (l : list A) :
  (∀ x, hit (f x) = hit x) →
  filter (λ x, hit x = true) (f <$> l) = f <$> filter (λ x, hit x = true) l.
Proof.
  intros Hf. induction l as [|x l IH]; [done|].
  rewrite fmap_cons, !filter_cons, Hf.
  destruct (decide (hit x = true)); [rewrite fmap_cons|]; by rewrite IH.
Qed.

Lemma filter_patched now bug_id p bug_id' db :
  filter (λ r, has_bug_id bug_id' r = true) (bugs_rows (patched_db now bug_id p db))
  = (λ r, if has_bug_id bug_id r then assign (set_clause now p) r else r) <$>
      filter (λ r, has_bug_id bug_id' r = true) (bugs_rows db).
Proof.
  unfold patched_db. cbn [set_rows bugs_rows]. apply filter_fmap_hit.
  intros r. destruct (has_bug_id bug_id r); [apply has_bug_id_assign|done].
Qed.

(** X2. Read your writes: when PATCH /bugs/{id} answers 200, a GET
    /bugs/{id} on the resulting state answers 200 with the very row the
    PATCH returned. *)
Theorem get_bug_after_patch now now' bug_id body db :
  status_of (PATCH_bug now bug_id body db).1 = 200 →
  GET_bug now' bug_id (PATCH_bug now bug_id body db).2 =
    ((PATCH_bug now bug_id body db).1, (PATCH_bug now bug_id body db).2).
Proof.
  rewrite PATCH_bug_run.
  destruct (BugUpdate.validate body) as [p|]; [|done].
  destruct (supplied p); [done|].
  destruct (filter _ (bugs_rows db)) as [|r rs] eqn:Hf; [done|]. intros _.
  cbn [fst snd]. rewrite GET_bug_run, filter_patched, Hf, fmap_cons.
  assert (has_bug_id bug_id r = true) as ->; [|done].
  assert (r ∈ filter (λ r, has_bug_id bug_id r = true) (bugs_rows db)) as Hin
    by (rewrite Hf; left).
  by apply list_elem_of_filter in Hin as [? _].
Qed.

Lemma get_bug_after_patch_witness :
  GET_bug 31 1 (PATCH_bug 30 1 close_it one_bug).2 =
    ((PATCH_bug 30 1 close_it one_bug).1, (PATCH_bug 30 1 close_it one_bug).2).
Proof. apply (get_bug_after_patch 30 31 1 close_it one_bug). by vm_compute. Defined.

(** * Repeating and combining requests *)

Lemma assign_twice now now' p (r : row) :
  assign (set_clause now' p) (assign (set_clause now p) r) = assign (set_clause now' p) r.
Proof.
  apply map_eq. intros c.
  destruct (decide (c ∈ (set_clause now' p).*1)) as [Hc|Hc].
  - apply list_elem_of_fmap in Hc as ([c' v] & -> & Hin).
    by rewrite !(lookup_assign_in _ _ _ v (set_clause_NoDup now' p) Hin).
  - rewrite !lookup_assign_notin; try done.
    by rewrite set_clause_keys, <- (set_clause_keys now').
Qed.

Lemma patched_db_twice now now' bug_id p db :
  patched_db now' bug_id p (patched_db now bug_id p db) = patched_db now' bug_id p db.
Proof.
  unfold patched_db. destruct db as [bs cs s1 s2]. cbn [set_rows bugs_rows bug_comments_rows
    bugs_bug_id_seq bug_comments_comment_id_seq]. f_equal.
  rewrite <- list_fmap_compose. apply list_fmap_ext. intros i r _. cbn [compose].
  destruct (has_bug_id bug_id r) eqn:Hhit.
  - by rewrite has_bug_id_assign, Hhit, assign_twice.
  - by rewrite Hhit.
Qed.

(** X3. Repeating a PATCH changes nothing but the clock: sending the same
    body to the same bug again gives the response and the state that the
    second request alone would have given. *)
Theorem patch_absorbs_repeat now now' bug_id body db :
  PATCH_bug now' bug_id body (PATCH_bug now bug_id body db).2 =
  PATCH_bug now' bug_id body db.
Proof.
  rewrite !PATCH_bug_run.
  destruct (BugUpdate.validate body) as [p|]; [|done].
  destruct (supplied p) eqn:Hs; [done|].
  destruct (filter _ (bugs_rows db)) as [|r rs] eqn:Hf; cbn [snd].
  { by rewrite Hf. }
  rewrite filter_patched, Hf, fmap_cons, patched_db_twice.
  assert (has_bug_id bug_id r = true) as ->.
  { assert (r ∈ filter (λ r, has_bug_id bug_id r = true) (bugs_rows db)) as Hin
      by (rewrite Hf; left).
    by apply list_elem_of_filter in Hin as [? _]. }
  by rewrite assign_twice.
Qed.

Lemma has_bug_id_inj bug_id bug_id' r :
  has_bug_id bug_id r = true → has_bug_id bug_id' r = true → bug_id = bug_id'.
Proof. rewrite !has_bug_id_true. intros -> [= ->]. done. Qed.

Lemma filter_patched_other now bug_id p bug_id' db :
  bug_id' ≠ bug_id →
  filter (λ r, has_bug_id bug_id' r = true) (bugs_rows (patched_db now bug_id p db))
  = filter (λ r, has_bug_id bug_id' r = true) (bugs_rows db).
Proof.
  intros Hne. rewrite filter_patched.
  rewrite <- (list_fmap_id (filter _ (bugs_rows db))) at 2.
  apply list_fmap_ext. intros i r Hr%list_elem_of_lookup_2. cbn.
  apply list_elem_of_filter in Hr as [Hhit _].
  destruct (has_bug_id bug_id r) eqn:Hhit'; [|done].
  destruct Hne. eauto using has_bug_id_inj.
Qed.

(** X4. Requests about one bug do not disturb another: GET /bugs/{id'}
    answers the same after a PATCH of a different bug, after a comment is
    posted on any bug, and, when the bug already exists, after another bug
    is created. *)
Theorem get_bug_unaffected_by_other_requests now now' bug_id bug_id' body db :
  (bug_id' ≠ bug_id →
     (GET_bug now' bug_id' (PATCH_bug now bug_id body db).2).1 =
     (GET_bug now' bug_id' db).1) ∧
  (GET_bug now' bug_id' (POST_comments now bug_id body db).2).1 =
  (GET_bug now' bug_id' db).1 ∧
  (bug_exists bug_id' db →
     (GET_bug now' bug_id' (POST_bugs now body db).2).1 =
     (GET_bug now' bug_id' db).1).
Proof.
  split_and!.
  - intros Hne. rewrite PATCH_bug_run.
    destruct (BugUpdate.validate body) as [p|]; [|done].
    destruct (supplied p); [done|].
    destruct (filter _ (bugs_rows db)); [done|]. cbn [snd].
    rewrite !GET_bug_run, filter_patched_other by done.
    by destruct (filter _ (bugs_rows db)).
  - rewrite !GET_bug_run. rewrite (proj1 (POST_comments_bugs _ _ _ _)).
    by destruct (filter _ (bugs_rows db)).
  - intros (r & rs & Hf & _)%filter_hit_cons. rewrite POST_bugs_run.
    destruct (BugCreate.validate body) as [p|]; [|done]. cbn [snd].
    rewrite !GET_bug_run. cbn [bugs_rows]. by rewrite filter_app, Hf.
Qed.

Lemma get_bug_unaffected_by_other_requests_witness :
  (GET_bug 31 1 (PATCH_bug 30 2 close_it two_bugs).2).1 = (GET_bug 31 1 two_bugs).1 ∧
  (GET_bug 31 1 (POST_bugs 30 closed_report one_bug).2).1 = (GET_bug 31 1 one_bug).1.
Proof.
  destruct (get_bug_unaffected_by_other_requests 30 31 2 1 close_it two_bugs)
    as (Hpatch & _ & _).
  destruct (get_bug_unaffected_by_other_requests 30 31 1 1 closed_report one_bug)
    as (_ & _ & Hpost).
  split; [apply Hpatch; lia | exact (Hpost one_bug_exists)].
Defined.

(** * What the schemas accept *)














(** * Stored rows satisfy the schemas *)








(** * Nothing is deleted, comments never change *)

Lemma keeps_history_refl db : keeps_history db db.
Proof.
  split; [done|]. exists (bugs_rows db), []. split; [by rewrite app_nil_r|].
  apply Forall_Forall2_diag, Forall_forall. auto.
Qed.


Lemma step_keeps_history db db' : step db db' → keeps_history db db'.
Proof.
  intros Hstep.
  destruct Hstep as [now db|now body db|now bug_id db|now bug_id body db
                    |now bug_id body db|now bug_id db].
  - rewrite GET_bugs_run. apply keeps_history_refl.
  - rewrite POST_bugs_run.
    destruct (BugCreate.validate body) as [p|]; [|apply keeps_history_refl].
    cbv zeta. split; [done|]. eexists (bugs_rows db), [_]. split; [reflexivity|].
    apply Forall_Forall2_diag, Forall_forall. auto.
  - rewrite GET_bug_state. apply keeps_history_refl.
  - rewrite PATCH_bug_run.
    destruct (BugUpdate.validate body) as [p|]; [|apply keeps_history_refl].
    destruct (supplied p); [apply keeps_history_refl|].
    destruct (filter _ (bugs_rows db)); [apply keeps_history_refl|].
    split; [done|]. eexists _, []. split; [by rewrite app_nil_r|].
    unfold patched_db. cbn [snd set_rows bugs_rows].
    apply Forall2_fmap_self. intros r _.
    destruct (has_bug_id bug_id r); [|done].
    destruct (patched_row now p r) as (_ & _ & _ & Hframe).
    split; apply Hframe; try done;
      intros Hin%supplied_keys; revert Hin; compute_done.
  - rewrite POST_comments_run.
    destruct (CommentCreate.validate body) as [p|]; [|apply keeps_history_refl].
    destruct (filter _ (bugs_rows db)); [apply keeps_history_refl|].
    cbv zeta. split; [by apply prefix_app_r|]. exists (bugs_rows db), [].
    split; [by rewrite app_nil_r|]. apply Forall_Forall2_diag, Forall_forall. auto.
  - rewrite GET_comments_run. apply keeps_history_refl.
Qed.



(** * Comments belong to bugs *)

Lemma bug_exists_keeps db db' bug_id :
  keeps_history db db' → bug_exists bug_id db → bug_exists bug_id db'.
Proof.
  intros [_ (rows & new & E & Hrows)] (r & Hr & Hhit)%Exists_exists.
  apply has_bug_id_true in Hhit.
  apply list_elem_of_lookup in Hr as [i Hi].
  destruct (Forall2_lookup_l _ _ _ _ _ Hrows Hi) as (r' & Hi' & Hid & _).
  apply Exists_exists. exists r'. split.
  - rewrite E. apply elem_of_app. left. by eapply list_elem_of_lookup_2.
  - apply has_bug_id_true. unfold col in *. by rewrite Hid.
Qed.

Lemma step_comments_reference_bugs db db' :
  step db db' → comments_reference_bugs db → comments_reference_bugs db'.
Proof.
  intros Hstep IH.
  pose proof (step_keeps_history _ _ Hstep) as Hkeep.
  assert (Forall (λ c, ∃ n, col c "bug_id" = SqlInt n ∧ bug_exists n db')
            (bug_comments_rows db)) as Hold.
  { eapply Forall_impl; [exact IH|]. intros c (n & ? & ?).
    exists n. eauto using bug_exists_keeps. }
  unfold comments_reference_bugs.
  destruct Hstep as [now db|now body db|now bug_id db|now bug_id body db
                    |now bug_id body db|now bug_id db].
  - by rewrite GET_bugs_run in *.
  - rewrite POST_bugs_run in *. by destruct (BugCreate.validate body).
  - by rewrite GET_bug_state in *.
  - rewrite PATCH_bug_run in *.
    destruct (BugUpdate.validate body) as [p|]; [|done].
    destruct (supplied p); [done|].
    by destruct (filter _ (bugs_rows db)).
  - rewrite POST_comments_run in *.
    destruct (CommentCreate.validate body) as [p|]; [|done].
    destruct (filter _ (bugs_rows db)) as [|r rs] eqn:Hf; [done|].
    cbn [snd bug_comments_rows] in *. apply Forall_app. split; [done|].
    apply Forall_singleton. exists bug_id. split.
    + unfold created_comment, col. by simplify_map_eq.
    + apply Exists_exists. exists r.
      assert (r ∈ filter (λ r, has_bug_id bug_id r = true) (bugs_rows db)) as Hin
        by (rewrite Hf; left).
      by apply list_elem_of_filter in Hin as [? ?].
  - by rewrite GET_comments_run in *.
Qed.


Lemma one_bug_reachable : reachable one_bug.
Proof. apply (reachable_step init_db); [apply reachable_init|apply step_POST_bugs]. Defined.


(** X12. GET /bugs/{id}/comments does not look the bug up: it never answers
    404, and in every reachable state it answers 200 with the empty list
    for an identifier no bug has. *)
Theorem list_comments_of_missing_bug now bug_id db :
  status_of (GET_comments now bug_id db).1 = 200 ∧
  (reachable db → ¬ bug_exists bug_id db →
     GET_comments now bug_id db = (Response 200 [], db)).
Proof.
  rewrite GET_comments_run. split; [done|].
  intros Hreach.
  assert (comments_reference_bugs db) as Hrefs.
  { induction Hreach as [|db db' _ IH Hstep]; [constructor|].
    by apply (step_comments_reference_bugs db db'). }
  clear Hreach. rename Hrefs into Hreach. intros Hno.
  assert (filter (λ r, has_bug_id bug_id r = true) (bug_comments_rows db) = []) as ->; [|done].
  apply filter_nil_Exists. intros (c & Hc & Hhit)%Exists_exists.
  apply has_bug_id_true in Hhit.
  destruct (proj1 (Forall_forall _ _) Hreach c Hc) as (n & Hn & Hex).
  rewrite Hhit in Hn. by injection Hn as ->.
Qed.

Lemma list_comments_of_missing_bug_witness :
  GET_comments 50 7 one_bug = (Response 200 [], one_bug).
Proof.
  apply (list_comments_of_missing_bug 50 7 one_bug); [exact one_bug_reachable|].
  apply one_bug_only. lia.
Defined.

(** * Reading what was created *)








(** * The shape of the rows in responses *)

Lemma dom_project cols r : dom (project (Col <$> cols) r) = list_to_set cols.
Proof.
  induction cols as [|c cols IH]; [by rewrite fmap_nil; cbn; rewrite dom_empty_L|].
  rewrite fmap_cons. cbn [project]. rewrite dom_insert_L, IH. done.
Qed.

(** X16. Whatever the tables hold, every bug returned by GET /bugs,
    GET /bugs/{id}, POST /bugs and PATCH /bugs/{id} has exactly the eight
    columns of a bug, and every comment returned by POST and GET
    /bugs/{id}/comments exactly the five columns of a comment. *)
Theorem responses_have_all_columns now bug_id body db :
  (∀ rows, (GET_bugs now db).1 = Response 200 rows →
           Forall (has_columns bugs) rows) ∧
  (∀ r, (GET_bug now bug_id db).1 = Response 200 r → has_columns bugs r) ∧
  (∀ r, (POST_bugs now body db).1 = Response 201 r → has_columns bugs r) ∧
  (∀ r, (PATCH_bug now bug_id body db).1 = Response 200 r → has_columns bugs r) ∧
  (∀ r, (POST_comments now bug_id body db).1 = Response 201 r →
        has_columns bug_comments r) ∧
  (∀ rows, (GET_comments now bug_id db).1 = Response 200 rows →
           Forall (has_columns bug_comments) rows).
Proof.
  unfold has_columns. split_and!.
  - intros rows. rewrite GET_bugs_run. intros [= <-].
    apply Forall_fmap, Forall_forall. intros r _. exact (dom_project bug_columns r).
  - intros r. rewrite GET_bug_run.
    destruct (filter _ (bugs_rows db)); [done|]. intros [= <-].
    exact (dom_project bug_columns _).
  - intros r. rewrite POST_bugs_run.
    destruct (BugCreate.validate body) as [p|]; [|done]. intros [= <-].
    apply created_bug_columns.
  - intros r. rewrite PATCH_bug_run.
    destruct (BugUpdate.validate body) as [p|]; [|done].
    destruct (supplied p); [done|].
    destruct (filter _ (bugs_rows db)); [done|]. intros [= <-].
    exact (dom_project bug_columns _).
  - intros r. rewrite POST_comments_run.
    destruct (CommentCreate.validate body) as [p|]; [|done].
    destruct (filter _ (bugs_rows db)); [done|]. intros [= <-].
    apply created_comment_columns.
  - intros rows. rewrite GET_comments_run. intros [= <-].
    apply Forall_fmap, Forall_forall. intros r _. exact (dom_project comment_columns r).
Qed.
